(** * gemc output records: a shallow embedding of [output/outputFactory.h]

    The header declares the per-hit accumulator [hitOutput], the
    per-detector roll-up [summaryForParticle], the particle record
    [generatedParticle], the output channel [outputContainer] and the
    abstract backend [outputFactory] with its registry lookup
    [getOutputFactory].

    C++ [std::map] members are finite maps ([gmap]); [std::string] is
    [string]; [int] is a [Z]; [double] is an IEEE-754 binary64 value in the
    inductive form of the Standard Library ([spec_float]).  Member functions
    are written in state-passing style: a method that may touch the object
    returns the new object next to its result. *)

From Stdlib Require Import ZArith Lia SpecFloat.
From stdpp Require Import base countable gmap strings list fin_maps.

Local Open Scope Z_scope.

(** ** [double] and the conversion from [int] *)

Module Double.

Definition prec : Z := 53.
Definition emax : Z := 1024.

Definition double : Type := spec_float.

#[global] Instance double_eq_dec : EqDecision double.
Proof. solve_decision. Defined.

Definition encode_double (x : double) : bool + bool + unit + bool * positive * Z :=
  match x with
  | S754_zero s => inl (inl (inl s))
  | S754_infinity s => inl (inl (inr s))
  | S754_nan => inl (inr tt)
  | S754_finite s m e => inr (s, m, e)
  end.

Definition decode_double (c : bool + bool + unit + bool * positive * Z) : double :=
  match c with
  | inl (inl (inl s)) => S754_zero s
  | inl (inl (inr s)) => S754_infinity s
  | inl (inr _) => S754_nan
  | inr (s, m, e) => S754_finite s m e
  end.

#[global] Instance double_countable : Countable double.
Proof. by apply (inj_countable' encode_double decode_double); intros []. Defined.

(** The conversion [(double) i] of an [int], which is also what an [int]
    literal undergoes when it is assigned to or returned as a [double]:
    rounding to nearest-even at binary64 precision. *)
Definition of_int (i : Z) : double := binary_normalize prec emax i 0 false.

(** The 32-bit range of a C++ [int]. *)
Definition int_range (i : Z) : Prop := -2147483648 <= i < 2147483648.

(** The integer a [double] denotes, when it denotes one: a finite value is
    [(-1)^s * m * 2^e], read back exactly. *)
Definition to_int (x : double) : option Z :=
  match x with
  | S754_zero _ => Some 0
  | S754_finite s m e =>
      match e with
      | Z0 => Some (cond_Zopp s (Zpos m))
      | Zpos p => Some (cond_Zopp s (Zpos m * 2 ^ Zpos p))
      | Zneg p =>
          if decide (Zpos m mod 2 ^ Zpos p = 0)
          then Some (cond_Zopp s (Zpos m / 2 ^ Zpos p))
          else None
      end
  | S754_infinity _ | S754_nan => None
  end.

(** [x < y] as the comparison on [double] decides it. *)
Definition ltb (x y : double) : bool := SFltb x y.

(** A value-initialised [double], and the literal [0]. *)
Definition zero : double := of_int 0.

End Double.

Import Double.

(** ** [std::map] operations used by the header *)

Section StdMap.
Context {K : Type} `{Countable K} {V : Type}.

(** [m.find(k) != m.end()] *)
Definition map_contains (k : K) (m : gmap K V) : bool :=
  bool_decide (is_Some (m !! k)).

(** [m[k]]: a reference to the mapped value; a missing key is first
    inserted with a value-initialised mapped value [dflt].  The result is
    the value read and the map after the call. *)
Definition map_subscript (dflt : V) (k : K) (m : gmap K V) : V * gmap K V :=
  match m !! k with
  | Some v => (v, m)
  | None => (dflt, <[k := dflt]> m)
  end.

(** [m[k] = v]: subscript, then assignment through the reference. *)
Definition map_subscript_assign (dflt : V) (k : K) (v : V) (m : gmap K V) : gmap K V :=
  <[k := v]> (snd (map_subscript dflt k m)).

End StdMap.

(** ** class [hitOutput]

    The six members, in the order of the class.  A [gmap] keeps one value
    per key and no insertion order, as [std::map] does.  [signalVT] is
    keyed by [double]: [std::map] orders its keys with [<], under which
    the two zeros are one key, so the maps of the class are among the
    [gmap]s and every statement below covers them. *)

Record hitOutput : Type := mk_hitOutput {
  raws : gmap string double;
  dgtz : gmap string double;
  allRaws : gmap string (list double);
  signalVT : gmap double double;
  quantumS : gmap Z Z;
  multiDgt : gmap string (list Z)
}.

Definition setRaws (r : gmap string double) (h : hitOutput) : hitOutput :=
  mk_hitOutput r (dgtz h) (allRaws h) (signalVT h) (quantumS h) (multiDgt h).

Definition setDgtz (d : gmap string double) (h : hitOutput) : hitOutput :=
  mk_hitOutput (raws h) d (allRaws h) (signalVT h) (quantumS h) (multiDgt h).

Definition setAllRaws (r : gmap string (list double)) (h : hitOutput) : hitOutput :=
  mk_hitOutput (raws h) (dgtz h) r (signalVT h) (quantumS h) (multiDgt h).

Definition setSignal (s : gmap double double) (h : hitOutput) : hitOutput :=
  mk_hitOutput (raws h) (dgtz h) (allRaws h) s (quantumS h) (multiDgt h).

Definition setQuantumS (s : gmap Z Z) (h : hitOutput) : hitOutput :=
  mk_hitOutput (raws h) (dgtz h) (allRaws h) (signalVT h) s (multiDgt h).

Definition setMultiDgt (d : gmap string (list Z)) (h : hitOutput) : hitOutput :=
  mk_hitOutput (raws h) (dgtz h) (allRaws h) (signalVT h) (quantumS h) d.

(** [raws[s] = d] and the [int] overload [raws[s] = (double) i]. *)
Definition setOneRaw (s : string) (d : double) (h : hitOutput) : hitOutput :=
  setRaws (map_subscript_assign zero s d (raws h)) h.

Definition setOneRaw_int (s : string) (i : Z) (h : hitOutput) : hitOutput :=
  setRaws (map_subscript_assign zero s (of_int i) (raws h)) h.

Definition setOneDgt (s : string) (d : double) (h : hitOutput) : hitOutput :=
  setDgtz (map_subscript_assign zero s d (dgtz h)) h.

Definition setOneDgt_int (s : string) (i : Z) (h : hitOutput) : hitOutput :=
  setDgtz (map_subscript_assign zero s (of_int i) (dgtz h)) h.

Definition getRaws (h : hitOutput) : gmap string double := raws h.
Definition getDgtz (h : hitOutput) : gmap string double := dgtz h.
Definition getAllRaws (h : hitOutput) : gmap string (list double) := allRaws h.
Definition getSignalVT (h : hitOutput) : gmap double double := signalVT h.
Definition getQuantumS (h : hitOutput) : gmap Z Z := quantumS h.
Definition getMultiDgt (h : hitOutput) : gmap string (list Z) := multiDgt h.

(** The value returned on a miss: the literal [-99] converted to [double]. *)
Definition miss_sentinel : double := of_int (-99).

(** [if(raws.find(s) != raws.end()) return raws[s]; return -99;]
    The subscript is a non-const access, so the record after the call is
    part of the result. *)
Definition getIntRawVar (s : string) (h : hitOutput) : double * hitOutput :=
  if map_contains s (raws h)
  then let '(v, m) := map_subscript zero s (raws h) in (v, setRaws m h)
  else (miss_sentinel, h).

Definition getIntDgtVar (s : string) (h : hitOutput) : double * hitOutput :=
  if map_contains s (dgtz h)
  then let '(v, m) := map_subscript zero s (dgtz h) in (v, setDgtz m h)
  else (miss_sentinel, h).

(** ** Objects, addresses and return by value

    The getters return their container by value: the call copy-constructs a
    new object from the member.  To say that the caller's object is
    independent of the record, objects live in a store at addresses; a
    [hitOutput] sits at the address [this], and a getter call leaves the
    returned container at an address of its own. *)

Inductive container : Type :=
  | MapStringDouble (m : gmap string double)
  | MapStringVecDouble (m : gmap string (list double))
  | MapDoubleDouble (m : gmap double double)
  | MapIntInt (m : gmap Z Z)
  | MapStringVecInt (m : gmap string (list Z)).

Inductive getter : Type :=
  | GetRaws | GetDgtz | GetAllRaws | GetSignalVT | GetQuantumS | GetMultiDgt.

Definition getter_value (g : getter) (h : hitOutput) : container :=
  match g with
  | GetRaws => MapStringDouble (getRaws h)
  | GetDgtz => MapStringDouble (getDgtz h)
  | GetAllRaws => MapStringVecDouble (getAllRaws h)
  | GetSignalVT => MapDoubleDouble (getSignalVT h)
  | GetQuantumS => MapIntInt (getQuantumS h)
  | GetMultiDgt => MapStringVecInt (getMultiDgt h)
  end.

(** The containers other than the one [g] reads are the same in [h'] as
    in [h]. *)
Definition others_kept (g : getter) (h h' : hitOutput) : Prop :=
  forall g', g' <> g -> getter_value g' h' = getter_value g' h.

(** [h'] is [h] with the container [g] reads replaced by [c]. *)
Definition replaces (g : getter) (c : container) (h h' : hitOutput) : Prop :=
  getter_value g h' = c /\ others_kept g h h'.

(** [m'] is [m] with the one entry [s] set to [x]. *)
Definition sets_one_entry (s : string) (x : double) (m m' : gmap string double) : Prop :=
  m' !! s = Some x /\ forall s', s' <> s -> m' !! s' = m !! s'.

Inductive object : Type :=
  | ObjHit (h : hitOutput)
  | ObjContainer (c : container).

Definition address : Type := positive.

(** [this->get...()]: reads the record at [this], and materialises the
    returned copy at an address no object occupies yet. *)
Definition call_getter (g : getter) (this : address) (st : gmap address object)
  : option (address * gmap address object) :=
  match st !! this with
  | Some (ObjHit h) =>
      let ret := fresh (dom st) in
      Some (ret, <[ret := ObjContainer (getter_value g h)]> st)
  | _ => None
  end.

(** Any mutation of the object at [a]: it holds [c] afterwards. *)
Definition mutate (a : address) (c : container) (st : gmap address object)
  : gmap address object :=
  <[a := ObjContainer c]> st.

(** The container a getter call on [this] hands back in store [st]. *)
Definition getter_result (g : getter) (this : address) (st : gmap address object)
  : option container :=
  match call_getter g this st with
  | Some (ret, st') =>
      match st' !! ret with
      | Some (ObjContainer c) => Some c
      | _ => None
      end
  | None => None
  end.

(** ** class [summaryForParticle] *)

Record summaryForParticle : Type := mk_summaryForParticle {
  dname : string;
  stat : Z;
  etot : double;
  t : double;
  nphe : Z
}.

(** The constructor [summaryForParticle(string detector)]. *)
Definition new_summaryForParticle (detector : string) : summaryForParticle :=
  {| dname := detector;
     stat := 0;
     etot := of_int 0;
     t := of_int (-1);
     nphe := 0 |}.

(** ** class [generatedParticle] *)

Record G4ThreeVector : Type := mk_G4ThreeVector {
  vec_x : double;
  vec_y : double;
  vec_z : double
}.

Record generatedParticle : Type := mk_generatedParticle {
  vertex : G4ThreeVector;
  momentum : G4ThreeVector;
  PID : Z;
  time : double;
  multiplicity : Z;
  pSum : list summaryForParticle
}.

(** [v.clear()] on a [std::vector]. *)
Definition vector_clear {A : Type} (v : list A) : list A := [].

(** The constructor [generatedParticle() { pSum.clear(); }].  It names no
    member initialiser: [vertex] and [momentum] are whatever the
    default constructor of [G4ThreeVector] leaves, [PID], [time] and
    [multiplicity] have indeterminate values, and [pSum] starts as a
    default-constructed vector.  The first five are arguments here. *)
Definition new_generatedParticle (vertex0 momentum0 : G4ThreeVector)
    (PID0 : Z) (time0 : double) (multiplicity0 : Z) : generatedParticle :=
  {| vertex := vertex0;
     momentum := momentum0;
     PID := PID0;
     time := time0;
     multiplicity := multiplicity0;
     pSum := vector_clear [] |}.

(** ** Named variables of a [generatedParticle]

    [getVariableFromStringI] and [getVariableFromStringD] are declared in
    the header; their bodies are in a translation unit that is not part of
    the sources at hand. *)

Inductive axis : Type := AxisX | AxisY | AxisZ.

Definition component (a : axis) (v : G4ThreeVector) : double :=
  match a with
  | AxisX => vec_x v
  | AxisY => vec_y v
  | AxisZ => vec_z v
  end.

(** The fields a name can resolve to: the identity code is the integer
    one, the vertex and momentum components and the time are floating. *)
Inductive int_field : Type := FieldIdentity.

Inductive double_field : Type :=
  | FieldVertex (a : axis)
  | FieldMomentum (a : axis)
  | FieldTime.

Definition int_field_value (f : int_field) (p : generatedParticle) : Z :=
  match f with
  | FieldIdentity => PID p
  end.

Definition double_field_value (f : double_field) (p : generatedParticle) : double :=
  match f with
  | FieldVertex a => component a (vertex p)
  | FieldMomentum a => component a (momentum p)
  | FieldTime => time p
  end.

Inductive variable_error : Type :=
  | UnknownVariableName (name : string).

Section NamedVariables.

(** The names under which the fields are known.  The header and the
    description fix no spelling, so the two tables are parameters. *)
Variable int_field_of_name : string -> option int_field.
Variable double_field_of_name : string -> option double_field.

Definition recognized (name : string) : Prop :=
  is_Some (int_field_of_name name) \/ is_Some (double_field_of_name name).

(** Modelled from the spec: the body of [generatedParticle::getVariableFromStringI]
    is missing.  It resolves a named variable "by searching
    vertex/momentum/identity/time fields", does not fall through to hit
    data, and on an unrecognized key "must fail with a descriptible
    unknown variable name outcome". *)
Definition getVariableFromStringI (what : string) (p : generatedParticle)
  : variable_error + Z :=
  match int_field_of_name what with
  | Some f => inr (int_field_value f p)
  | None => inl (UnknownVariableName what)
  end.

(** Modelled from the spec: the body of [generatedParticle::getVariableFromStringD]
    is missing; as above, for the floating fields. *)
Definition getVariableFromStringD (what : string) (p : generatedParticle)
  : variable_error + double :=
  match double_field_of_name what with
  | Some f => inr (double_field_value f p)
  | None => inl (UnknownVariableName what)
  end.

End NamedVariables.

(** ** class [outputFactory] and its registry *)

(** The abstract backend.  Its seven operations are pure virtual and write
    to the channel; the one data member is [outputType]. *)
Record outputFactory : Type := mk_outputFactory {
  outputType : string
}.

(** [outputFactoryInMap]: a pointer to a function of no argument that
    returns a pointer to a new [outputFactory]. *)
Definition outputFactoryInMap : Type := unit -> outputFactory.

Inductive factory_error : Type :=
  | UnknownOutputKind (kind : string).

(** Modelled from the spec: the body of [getOutputFactory] is missing.
    It "looks up kind, constructs and returns a new backend instance, and
    fails with a descriptible unknown output kind error if kind is absent
    from the registry". *)
Definition getOutputFactory (outputFactoryMap : gmap string outputFactoryInMap)
    (kind : string) : factory_error + outputFactory :=
  match outputFactoryMap !! kind with
  | Some construct => inr (construct tt)
  | None => inl (UnknownOutputKind kind)
  end.

(** Modelled from the spec: the body of [registerOutputFactories] is missing.
    It "builds a mapping from output-kind identifier to a zero-argument
    constructor for the matching backend"; the identifiers of the backends
    that exist are the argument. *)
Definition registerOutputFactories (kinds : list string) : gmap string outputFactoryInMap :=
  list_to_map ((fun k => (k, fun _ : unit => mk_outputFactory k)) <$> kinds).

(** What makes a map a registry: every constructor in it builds the backend
    that matches the identifier it is filed under. *)
Definition registry_matches (outputFactoryMap : gmap string outputFactoryInMap) : Prop :=
  forall kind construct,
    outputFactoryMap !! kind = Some construct -> outputType (construct tt) = kind.

(** ** class [outputContainer]

    The header declares the members and the constructor and destructor;
    their bodies, and the stream libraries they drive, are not part of the
    sources at hand. *)

Inductive stream_kind : Type := TextStream | StructuredStream.

(** What a handle points to: a stream that is open, one whose opening
    failed, or one that has been closed. *)
Inductive stream_state : Type := StreamOpen | StreamFailed | StreamClosed.

Inductive io_event : Type :=
  | EvOpen (k : stream_kind) (path : string)
  | EvWrite (k : stream_kind)
  | EvFlush (k : stream_kind)
  | EvClose (k : stream_kind).

Inductive channel_error : Type :=
  | UnknownOutputType (name : string)
  | CannotOpen (path : string)
  | NotOpen (k : stream_kind)
  | WriteFailed (k : stream_kind).

#[global] Instance stream_kind_eq_dec : EqDecision stream_kind.
Proof. solve_decision. Defined.

#[global] Instance io_event_eq_dec : EqDecision io_event.
Proof. solve_decision. Defined.

(** How often the event [e] occurs in a trace. *)
Definition occurrences (e : io_event) (trace : list io_event) : nat :=
  length (filter (fun e' => e' = e) trace).

(** Modelled from the spec: the stream libraries are absent ("black boxes
    that accept structured records").  Closing flushes and closes; closing
    a stream that is not open is the library's "double-free-style" error,
    the one the channel must not provoke. *)
Definition stream_close (k : stream_kind) (s : stream_state)
  : channel_error + stream_state * list io_event :=
  match s with
  | StreamOpen => inr (StreamClosed, [EvFlush k; EvClose k])
  | StreamFailed | StreamClosed => inl (NotOpen k)
  end.

(** Modelled from the spec: writing through the absent stream library.
    The calls "may block on device/filesystem latency" and there is the
    "I/O error -- underlying stream cannot be opened, or a write fails
    mid-event": a write to an open stream goes through or fails as the
    device decides ([accepted]), and a write to a stream that is not open
    fails. *)
Definition stream_write (k : stream_kind) (s : stream_state) (accepted : bool)
  : channel_error + list io_event :=
  match s with
  | StreamOpen => if accepted then inr [EvWrite k] else inl (WriteFailed k)
  | StreamFailed | StreamClosed => inl (NotOpen k)
  end.

Section Channel.

(** [goptions] comes from [options.h]; the two strings the constructor
    reads from it, the stream each output type selects, and whether a path
    can be opened are given from outside. *)
Variable goptions : Type.
Variable option_outType : goptions -> string.
Variable option_outFile : goptions -> string.
Variable kind_of : string -> option stream_kind.
Variable can_open : stream_kind -> string -> bool.

(** The members as declared.  The two pointers are [None] when null and
    otherwise give the state of the stream they point to. *)
Record outputContainer : Type := mk_outputContainer {
  gemcOpt : goptions;
  outType : string;
  outFile : string;
  txtoutput : option stream_state;
  pchan : option stream_state
}.

Definition handle_of (k : stream_kind) (c : outputContainer) : option stream_state :=
  match k with
  | TextStream => txtoutput c
  | StructuredStream => pchan c
  end.

Definition with_handle (k : stream_kind) (h : option stream_state)
    (c : outputContainer) : outputContainer :=
  match k with
  | TextStream => mk_outputContainer (gemcOpt c) (outType c) (outFile c) h (pchan c)
  | StructuredStream => mk_outputContainer (gemcOpt c) (outType c) (outFile c) (txtoutput c) h
  end.

Definition other_kind (k : stream_kind) : stream_kind :=
  match k with
  | TextStream => StructuredStream
  | StructuredStream => TextStream
  end.

(** "Exactly one of: a text-stream handle, a structured-stream handle --
    whichever matches outputKind; the other is absent." *)
Definition holds_only (k : stream_kind) (c : outputContainer) : Prop :=
  is_Some (handle_of k c) /\ handle_of (other_kind k) c = None.

(** Modelled from the spec: opening through the absent stream library; the
    outcome is decided by [can_open]. *)
Definition stream_open (k : stream_kind) (path : string) : stream_state * list io_event :=
  if can_open k path then (StreamOpen, [EvOpen k path]) else (StreamFailed, []).

(** What construction hands back: the channel, the events so far, and the
    I/O error it reports when the stream could not be opened. *)
Record construction : Type := mk_construction {
  built : outputContainer;
  opening : list io_event;
  reported : option channel_error
}.

(** Modelled from the spec: the body of [outputContainer::outputContainer]
    is missing.  "Given configuration, determine kind, open the matching
    resource; if the resource cannot be opened, fail with a descriptible
    I/O error rather than proceeding with a null resource."  An unknown
    output type is a configuration error and builds nothing. *)
Definition new_outputContainer (opts : goptions) : channel_error + construction :=
  match kind_of (option_outType opts) with
  | None => inl (UnknownOutputType (option_outType opts))
  | Some k =>
      let '(s, ev) := stream_open k (option_outFile opts) in
      let c := with_handle k (Some s)
                 (mk_outputContainer opts (option_outType opts) (option_outFile opts) None None) in
      inr (mk_construction c ev
             (match s with
              | StreamOpen => None
              | StreamFailed | StreamClosed => Some (CannotOpen (option_outFile opts))
              end))
  end.

(** Modelled from the spec: the release step of the missing destructor,
    "closed exactly once, on channel destruction or explicit close" and
    "close-on-already-failed-open is idempotent-safe".  The stream is
    closed through the library only when it is open; an absent handle, a
    stream that never opened and one already closed are left alone. *)
Definition release (k : stream_kind) (c : outputContainer)
  : channel_error + outputContainer * list io_event :=
  match handle_of k c with
  | Some StreamOpen =>
      match stream_close k StreamOpen with
      | inr (s, ev) => inr (with_handle k (Some s) c, ev)
      | inl e => inl e
      end
  | Some StreamFailed | Some StreamClosed | None => inr (c, [])
  end.

(** Modelled from the spec: the body of [outputContainer::~outputContainer]
    is missing.  "The underlying resource is flushed and closed on every
    exit path (normal close, exceptional teardown), exactly once"; both
    handles are released, whichever is present. *)
Definition delete_outputContainer (c : outputContainer)
  : channel_error + outputContainer * list io_event :=
  match release TextStream c with
  | inl e => inl e
  | inr (c1, ev1) =>
      match release StructuredStream c1 with
      | inl e => inl e
      | inr (c2, ev2) => inr (c2, ev1 ++ ev2)
      end
  end.

(** What a run does to its channel before the channel is destroyed: it
    writes (the backends' operations), each write with the answer of the
    device, and it may close the channel explicitly. *)
Inductive channel_op : Type := OpWrite (accepted : bool) | OpClose.

(** Modelled from the spec: a backend write, whose code is absent, as far
    as the channel is concerned: it goes to the stream of the channel's
    output type. *)
Definition write_outputContainer (accepted : bool) (c : outputContainer)
  : channel_error + outputContainer * list io_event :=
  match kind_of (outType c) with
  | None => inl (UnknownOutputType (outType c))
  | Some k =>
      match handle_of k c with
      | Some s =>
          match stream_write k s accepted with
          | inr ev => inr (c, ev)
          | inl e => inl e
          end
      | None => inl (NotOpen k)
      end
  end.

Definition apply_op (op : channel_op) (c : outputContainer)
  : channel_error + outputContainer * list io_event :=
  match op with
  | OpWrite accepted => write_outputContainer accepted c
  | OpClose => delete_outputContainer c
  end.

(** Modelled from the spec: the callers are absent.  The operations of a
    run in order; the first one that fails ends the run with its error
    ("reported immediately; the run is aborted rather than continuing"),
    which is the exceptional exit.  A failed write leaves the stream as it
    was, open. *)
Fixpoint run_ops (ops : list channel_op) (c : outputContainer)
  : outputContainer * list io_event * option channel_error :=
  match ops with
  | [] => (c, [], None)
  | op :: rest =>
      match apply_op op c with
      | inl e => (c, [], Some e)
      | inr (c1, ev1) =>
          let '(c2, ev2, err) := run_ops rest c1 in (c2, ev1 ++ ev2, err)
      end
  end.

(** Modelled from the spec: the lifecycle contract "construct OutputChannel
    from configuration ... destroy OutputChannel (flush+close) at run end".
    A whole lifetime after construction: the run, then the destructor on
    whichever path the run left by.  The result is the error of the
    destructor, or the complete trace with the error of the run. *)
Definition lifetime (ops : list channel_op) (c : outputContainer)
  : channel_error + list io_event * option channel_error :=
  let '(c1, ev1, err) := run_ops ops c in
  match delete_outputContainer c1 with
  | inl e => inl e
  | inr (_, ev2) => inr (ev1 ++ ev2, err)
  end.

End Channel.

Arguments gemcOpt {goptions} _.
Arguments outType {goptions} _.
Arguments outFile {goptions} _.
Arguments txtoutput {goptions} _.
Arguments pchan {goptions} _.
Arguments handle_of {goptions} _ _.
Arguments with_handle {goptions} _ _ _.
Arguments holds_only {goptions} _ _.
Arguments built {goptions} _.
Arguments opening {goptions} _.
Arguments reported {goptions} _.
Arguments release {goptions} _ _.
Arguments delete_outputContainer {goptions} _.
Arguments write_outputContainer {goptions} _ _ _.
Arguments apply_op {goptions} _ _ _.
Arguments run_ops {goptions} _ _ _.
Arguments lifetime {goptions} _ _ _.

(** How many closes a handle in state [s] still owes. *)
Definition pending (s : stream_state) : nat :=
  match s with
  | StreamOpen => 1
  | StreamFailed | StreamClosed => 0
  end.

(** A channel of kind [k] whose one handle is in state [s]. *)
Definition channel_shape {goptions : Type} (kind_of : string -> option stream_kind)
    (k : stream_kind) (s : stream_state) (c : outputContainer goptions) : Prop :=
  kind_of (outType c) = Some k /\
  handle_of k c = Some s /\
  handle_of (other_kind k) c = None.

(** ** Sample values

    Concrete inputs on which the statements below are evaluated. *)

Definition sample_hit : hitOutput :=
  mk_hitOutput {[ "edep"%string := of_int 7 ]} {[ "adc"%string := of_int 105 ]}
    ∅ ∅ ∅ ∅.

Definition sample_store : gmap address object := {[ 1%positive := ObjHit sample_hit ]}.

Definition sample_particle : generatedParticle :=
  new_generatedParticle
    (mk_G4ThreeVector zero zero zero) (mk_G4ThreeVector zero zero (of_int 1))
    11 zero 1.

Definition sample_int_names (name : string) : option int_field :=
  if decide (name = "pid"%string) then Some FieldIdentity else None.

Definition sample_double_names (name : string) : option double_field :=
  if decide (name = "vx"%string) then Some (FieldVertex AxisX)
  else if decide (name = "vy"%string) then Some (FieldVertex AxisY)
  else if decide (name = "vz"%string) then Some (FieldVertex AxisZ)
  else if decide (name = "px"%string) then Some (FieldMomentum AxisX)
  else if decide (name = "py"%string) then Some (FieldMomentum AxisY)
  else if decide (name = "pz"%string) then Some (FieldMomentum AxisZ)
  else if decide (name = "time"%string) then Some FieldTime
  else None.

Definition sample_kinds : list string := [ "text"%string; "structured"%string ].

Definition sample_kind_of (name : string) : option stream_kind :=
  if decide (name = "text"%string) then Some TextStream
  else if decide (name = "structured"%string) then Some StructuredStream
  else None.

(** Sample options: the output type and the output file; a file with an
    empty name cannot be opened. *)
Definition sample_can_open (k : stream_kind) (path : string) : bool :=
  negb (bool_decide (path = EmptyString)).

(** * Properties *)

(** ** Integers as [double]s *)

Lemma digits2_pos_size p : digits2_pos p = Pos.size p.
Proof. induction p as [p IH|p IH|]; simpl; congruence. Qed.

Lemma digits2_pos_shift p d :
  digits2_pos (Pos.iter xO p d) = (digits2_pos p + d)%positive.
Proof.
  induction d as [|d IH] using Pos.peano_ind.
  - simpl. lia.
  - rewrite Pos.iter_succ. simpl. rewrite IH. lia.
Qed.

Lemma Zpos_shift p d : Zpos (Pos.iter xO p d) = Zpos p * 2 ^ Zpos d.
Proof.
  induction d as [|d IH] using Pos.peano_ind.
  - simpl. lia.
  - rewrite Pos.iter_succ, Pos2Z.inj_xO, IH, Pos2Z.inj_succ, Z.pow_succ_r by lia. lia.
Qed.

Lemma digits2_pos_bound p n :
  0 <= n -> Zpos p < 2 ^ n -> Zpos (digits2_pos p) <= n.
Proof.
  intros Hn Hp. rewrite digits2_pos_size.
  pose proof (Pos.size_le p) as Hle.
  apply Pos2Z.pos_le_pos in Hle. rewrite Pos2Z.inj_pow in Hle.
  destruct (Z_le_gt_dec (Zpos (Pos.size p)) n) as [|Hgt]; [done|].
  assert (2 ^ (n + 1) <= 2 ^ Zpos (Pos.size p)) by (apply Z.pow_le_mono_r; lia).
  rewrite Z.pow_add_r in * by lia. lia.
Qed.

(** A mantissa of at most 53 bits is not rounded: it is only shifted left
    until it has 53 bits. *)
Lemma binary_round_small s p :
  Zpos (digits2_pos p) <= 53 ->
  binary_round prec emax s p 0 =
    match 53 - Zpos (digits2_pos p) with
    | Zpos d => S754_finite s (Pos.iter xO p d) (Zneg d)
    | _ => S754_finite s p 0
    end.
Proof.
  intros Hd. unfold binary_round, shl_align, fexp, emin, prec, emax.
  replace (Z.max (Zpos (digits2_pos p) + 0 - 53) (3 - 1024 - 53))
    with (Zpos (digits2_pos p) - 53) by lia.
  destruct (53 - Zpos (digits2_pos p)) as [|d|d] eqn:Hk; [| |lia].
  - replace (Zpos (digits2_pos p) - 53 - 0) with 0 by lia.
    unfold binary_round_aux, shr_fexp, Zdigits2, fexp, emin.
    replace (Z.max (Zpos (digits2_pos p) + 0 - 53) (3 - 1024 - 53) - 0) with 0 by lia.
    simpl.
    replace (Z.max (Zpos (digits2_pos p) + 0 - 53) (3 - 1024 - 53) - 0) with 0 by lia.
    reflexivity.
  - replace (Zpos (digits2_pos p) - 53 - 0) with (Zneg d) by lia.
    replace (Zpos (digits2_pos p) - 53) with (Zneg d) by lia.
    unfold binary_round_aux, shr_fexp, Zdigits2, fexp, emin.
    rewrite digits2_pos_shift.
    replace (Z.max (Zpos (digits2_pos p + d) + Zneg d - 53) (3 - 1024 - 53) - Zneg d)
      with 0 by lia.
    simpl.
    rewrite digits2_pos_shift.
    replace (Z.max (Zpos (digits2_pos p + d) + Zneg d - 53) (3 - 1024 - 53) - Zneg d)
      with 0 by lia.
    simpl.
    destruct (Z.leb_spec (Zneg d) 971); [done|lia].
Qed.

Lemma to_int_binary_round s p :
  Zpos p < 2 ^ 53 ->
  to_int (binary_round prec emax s p 0) = Some (cond_Zopp s (Zpos p)).
Proof.
  intros Hp. rewrite binary_round_small by (apply digits2_pos_bound; lia).
  destruct (53 - Zpos (digits2_pos p)) as [|d|d]; try reflexivity.
  unfold to_int. rewrite Zpos_shift.
  assert (0 < 2 ^ Zpos d) by (apply Z.pow_pos_nonneg; lia).
  rewrite Z.mod_mul, Z.div_mul by lia.
  rewrite decide_True by done. reflexivity.
Qed.

(** Widening is exact well beyond the range of an [int]. *)
Lemma to_int_of_int i : - 2 ^ 53 < i < 2 ^ 53 -> to_int (of_int i) = Some i.
Proof.
  intros Hi. destruct i as [|p|p]; unfold of_int, binary_normalize.
  - reflexivity.
  - rewrite to_int_binary_round by lia. reflexivity.
  - rewrite to_int_binary_round by lia. reflexivity.
Qed.

Lemma to_int_of_int_range i : int_range i -> to_int (of_int i) = Some i.
Proof. unfold int_range. intros Hi. apply to_int_of_int. lia. Qed.

Lemma of_int_inj i j : int_range i -> int_range j -> of_int i = of_int j -> i = j.
Proof.
  intros Hi Hj Heq. apply to_int_of_int_range in Hi, Hj.
  rewrite Heq in Hi. congruence.
Qed.

Lemma miss_sentinel_denotes : to_int miss_sentinel = Some (-99).
Proof. apply to_int_of_int_range. unfold int_range. lia. Qed.

(** ** [std::map] subscript *)

Section StdMapFacts.
Context {K : Type} `{Countable K} {V : Type}.
Implicit Types (m : gmap K V) (k : K) (v dflt : V).

Lemma map_contains_true k m v : m !! k = Some v -> map_contains k m = true.
Proof. intros Hk. unfold map_contains. apply bool_decide_eq_true. eauto. Qed.

Lemma map_contains_false k m : m !! k = None -> map_contains k m = false.
Proof.
  intros Hk. unfold map_contains. apply bool_decide_eq_false.
  rewrite Hk. apply is_Some_None.
Qed.

Lemma map_subscript_hit dflt k m v :
  m !! k = Some v -> map_subscript dflt k m = (v, m).
Proof. intros Hk. unfold map_subscript. by rewrite Hk. Qed.

(** On its own the subscript does insert a missing key. *)
Lemma map_subscript_miss dflt k m :
  m !! k = None ->
  map_subscript dflt k m = (dflt, <[k := dflt]> m) /\
  (map_subscript dflt k m).2 !! k = Some dflt.
Proof.
  intros Hk. unfold map_subscript. rewrite Hk. split; [done|].
  apply lookup_insert_eq.
Qed.

Lemma map_subscript_assign_insert dflt k v m :
  map_subscript_assign dflt k v m = <[k := v]> m.
Proof.
  unfold map_subscript_assign, map_subscript.
  destruct (m !! k); simpl; [done|]. apply insert_insert_eq.
Qed.

End StdMapFacts.

(** ** [hitOutput] *)

Lemma setRaws_same h : setRaws (raws h) h = h.
Proof. by destruct h. Qed.

Lemma setDgtz_same h : setDgtz (dgtz h) h = h.
Proof. by destruct h. Qed.

Lemma getIntRawVar_unfold s h :
  getIntRawVar s h = (default miss_sentinel (raws h !! s), h).
Proof.
  unfold getIntRawVar. destruct (raws h !! s) as [v|] eqn:Hs.
  - rewrite (map_contains_true _ _ _ Hs), (map_subscript_hit _ _ _ _ Hs).
    by rewrite setRaws_same.
  - by rewrite (map_contains_false _ _ Hs).
Qed.

Lemma getIntDgtVar_unfold s h :
  getIntDgtVar s h = (default miss_sentinel (dgtz h !! s), h).
Proof.
  unfold getIntDgtVar. destruct (dgtz h !! s) as [v|] eqn:Hs.
  - rewrite (map_contains_true _ _ _ Hs), (map_subscript_hit _ _ _ _ Hs).
    by rewrite setDgtz_same.
  - by rewrite (map_contains_false _ _ Hs).
Qed.

Lemma raws_setOneRaw s d h : raws (setOneRaw s d h) = <[s := d]> (raws h).
Proof. unfold setOneRaw. simpl. apply map_subscript_assign_insert. Qed.

Lemma dgtz_setOneDgt s d h : dgtz (setOneDgt s d h) = <[s := d]> (dgtz h).
Proof. unfold setOneDgt. simpl. apply map_subscript_assign_insert. Qed.

Lemma others_kept_setRaws m h : others_kept GetRaws h (setRaws m h).
Proof. intros [] Hg; done. Qed.

Lemma others_kept_setDgtz m h : others_kept GetDgtz h (setDgtz m h).
Proof. intros [] Hg; done. Qed.

(** C1. A lookup of a key that [raws] (resp. [dgtz]) does not hold returns
    the sentinel, the [double] that denotes -99; a lookup of a key that is
    present returns the stored value. *)
Theorem getIntVar_sentinel_or_stored (h : hitOutput) (s : string) :
  (raws h !! s = None -> (getIntRawVar s h).1 = miss_sentinel) /\
  (dgtz h !! s = None -> (getIntDgtVar s h).1 = miss_sentinel) /\
  (forall v, raws h !! s = Some v -> (getIntRawVar s h).1 = v) /\
  (forall v, dgtz h !! s = Some v -> (getIntDgtVar s h).1 = v) /\
  to_int miss_sentinel = Some (-99).
Proof.
  rewrite getIntRawVar_unfold, getIntDgtVar_unfold. simpl.
  split; [by intros ->|].
  split; [by intros ->|].
  split; [by intros v ->|].
  split; [by intros v ->|].
  apply miss_sentinel_denotes.
Qed.

Lemma getIntVar_sentinel_or_stored_witness :
  (getIntRawVar "adc" sample_hit).1 = miss_sentinel /\
  (getIntDgtVar "edep" sample_hit).1 = miss_sentinel /\
  (getIntRawVar "edep" sample_hit).1 = of_int 7 /\
  (getIntDgtVar "adc" sample_hit).1 = of_int 105.
Proof.
  destruct (getIntVar_sentinel_or_stored sample_hit "adc") as (Hraw & _ & _ & Hdgt & _).
  destruct (getIntVar_sentinel_or_stored sample_hit "edep") as (_ & Hdgt' & Hraw' & _).
  split; [apply Hraw; reflexivity|].
  split; [apply Hdgt'; reflexivity|].
  split; [apply Hraw'; reflexivity|apply Hdgt; reflexivity].
Defined.

(** C8. [getIntRawVar] and [getIntDgtVar] leave the record as it was, for
    every key: the subscript is only reached for a key that is present, so
    a miss inserts nothing. *)
Theorem getIntVar_keeps_record (h : hitOutput) (s : string) :
  (getIntRawVar s h).2 = h /\ (getIntDgtVar s h).2 = h.
Proof. by rewrite getIntRawVar_unfold, getIntDgtVar_unfold. Qed.

(** C9. A whole-container setter followed by the matching getter gives back
    the container that was set, for each of the six pairs. *)
Theorem set_then_get (h : hitOutput)
    (r d : gmap string double) (a : gmap string (list double))
    (v : gmap double double) (q : gmap Z Z) (m : gmap string (list Z)) :
  getRaws (setRaws r h) = r /\
  getDgtz (setDgtz d h) = d /\
  getAllRaws (setAllRaws a h) = a /\
  getSignalVT (setSignal v h) = v /\
  getQuantumS (setQuantumS q h) = q /\
  getMultiDgt (setMultiDgt m h) = m.
Proof. repeat split. Qed.

Lemma sets_one_entry_insert s x (m : gmap string double) :
  sets_one_entry s x m (<[s := x]> m).
Proof.
  split; [apply lookup_insert_eq|].
  intros s' Hs'. by apply lookup_insert_ne.
Qed.

Lemma replaces_intro g c h h' :
  getter_value g h' = c ->
  (forall g', g' <> g -> getter_value g' h' = getter_value g' h) ->
  replaces g c h h'.
Proof. intros Hg Hothers. by split. Qed.

Ltac frame_of_setter :=
  apply replaces_intro; [reflexivity | intros [] ?; done].

(** C3. Each whole-container setter replaces its container by the argument
    and keeps the other five; [setOneRaw] and [setOneDgt] set the one entry
    [s] of their map and keep every other entry and container; the [int]
    overloads store [(double) i], which denotes [i] exactly, so that the
    lookup of [s] afterwards returns it. *)
Theorem setters_replace_and_widen (h : hitOutput)
    (r d : gmap string double) (a : gmap string (list double))
    (v : gmap double double) (q : gmap Z Z) (m : gmap string (list Z))
    (s : string) (x : double) (i : Z) :
  (replaces GetRaws (MapStringDouble r) h (setRaws r h) /\
   replaces GetDgtz (MapStringDouble d) h (setDgtz d h) /\
   replaces GetAllRaws (MapStringVecDouble a) h (setAllRaws a h) /\
   replaces GetSignalVT (MapDoubleDouble v) h (setSignal v h) /\
   replaces GetQuantumS (MapIntInt q) h (setQuantumS q h) /\
   replaces GetMultiDgt (MapStringVecInt m) h (setMultiDgt m h)) /\
  (sets_one_entry s x (raws h) (raws (setOneRaw s x h)) /\
   others_kept GetRaws h (setOneRaw s x h) /\
   sets_one_entry s x (dgtz h) (dgtz (setOneDgt s x h)) /\
   others_kept GetDgtz h (setOneDgt s x h)) /\
  (setOneRaw_int s i h = setOneRaw s (of_int i) h /\
   setOneDgt_int s i h = setOneDgt s (of_int i) h /\
   (getIntRawVar s (setOneRaw_int s i h)).1 = of_int i /\
   (getIntDgtVar s (setOneDgt_int s i h)).1 = of_int i /\
   (int_range i -> to_int (of_int i) = Some i)).
Proof.
  split; [|split].
  - repeat (split; [frame_of_setter|]). frame_of_setter.
  - rewrite raws_setOneRaw, dgtz_setOneDgt.
    split; [apply sets_one_entry_insert|].
    split; [apply others_kept_setRaws|].
    split; [apply sets_one_entry_insert|apply others_kept_setDgtz].
  - split; [reflexivity|]. split; [reflexivity|].
    rewrite getIntRawVar_unfold, getIntDgtVar_unfold.
    change (setOneRaw_int s i h) with (setOneRaw s (of_int i) h).
    change (setOneDgt_int s i h) with (setOneDgt s (of_int i) h).
    rewrite raws_setOneRaw, dgtz_setOneDgt, !lookup_insert_eq.
    split; [reflexivity|]. split; [reflexivity|].
    apply to_int_of_int_range.
Qed.

Lemma setters_replace_and_widen_witness :
  (getIntRawVar "edep" (setOneRaw_int "edep" 105 sample_hit)).1 = of_int 105 /\
  to_int (of_int 105) = Some 105.
Proof.
  destruct (setters_replace_and_widen sample_hit ∅ ∅ ∅ ∅ ∅ ∅ "edep" zero 105)
    as (_ & _ & _ & _ & Hget & _ & Hexact).
  split; [exact Hget|]. apply Hexact. unfold int_range. lia.
Defined.

(** ** Return by value *)

Lemma fresh_address_free (st : gmap address object) : st !! fresh (dom st) = None.
Proof. apply not_elem_of_dom, is_fresh. Qed.

Lemma call_getter_at g this st h :
  st !! this = Some (ObjHit h) ->
  call_getter g this st =
    Some (fresh (dom st), <[fresh (dom st) := ObjContainer (getter_value g h)]> st).
Proof. intros Hthis. unfold call_getter. by rewrite Hthis. Qed.

Lemma getter_result_at g this st h :
  st !! this = Some (ObjHit h) -> getter_result g this st = Some (getter_value g h).
Proof.
  intros Hthis. unfold getter_result.
  rewrite (call_getter_at _ _ _ _ Hthis). by rewrite lookup_insert_eq.
Qed.

(** C2. A getter call on the record at [this] leaves its result at an
    address [ret] that was free before the call, so it is not the record
    and not part of it; whatever is then done to the object at [ret], every
    getter called on the record afterwards returns what it returned
    before. *)
Theorem getters_return_copies (st : gmap address object) (this : address)
    (h : hitOutput) (g : getter) :
  st !! this = Some (ObjHit h) ->
  exists ret st1,
    call_getter g this st = Some (ret, st1) /\
    st !! ret = None /\ ret <> this /\
    st1 !! ret = Some (ObjContainer (getter_value g h)) /\
    forall (c : container) (g' : getter),
      getter_result g' this st1 = Some (getter_value g' h) /\
      getter_result g' this (mutate ret c st1) = Some (getter_value g' h).
Proof.
  intros Hthis.
  exists (fresh (dom st)), (<[fresh (dom st) := ObjContainer (getter_value g h)]> st).
  pose proof (fresh_address_free st) as Hfree.
  assert (fresh (dom st) <> this) as Hne by congruence.
  split; [by apply call_getter_at|].
  split; [done|]. split; [done|].
  split; [apply lookup_insert_eq|].
  intros c g'. split; apply getter_result_at.
  - by rewrite lookup_insert_ne.
  - unfold mutate. by rewrite !lookup_insert_ne.
Qed.

Lemma getters_return_copies_witness :
  exists ret st1,
    call_getter GetRaws 1%positive sample_store = Some (ret, st1) /\
    sample_store !! ret = None /\ ret <> 1%positive /\
    st1 !! ret = Some (ObjContainer (getter_value GetRaws sample_hit)) /\
    forall (c : container) (g' : getter),
      getter_result g' 1%positive st1 = Some (getter_value g' sample_hit) /\
      getter_result g' 1%positive (mutate ret c st1) = Some (getter_value g' sample_hit).
Proof. apply (getters_return_copies sample_store 1%positive sample_hit GetRaws). reflexivity. Defined.

(** ** [summaryForParticle] and [generatedParticle] *)

(** C4. A [summaryForParticle] built for a detector has no hit, a total
    energy of zero, a time below zero, no photoelectron, and carries the
    name it was built with. *)
Theorem new_summaryForParticle_fields (detector : string) :
  stat (new_summaryForParticle detector) = 0 /\
  etot (new_summaryForParticle detector) = zero /\
  to_int (etot (new_summaryForParticle detector)) = Some 0 /\
  ltb (t (new_summaryForParticle detector)) zero = true /\
  to_int (t (new_summaryForParticle detector)) = Some (-1) /\
  nphe (new_summaryForParticle detector) = 0 /\
  dname (new_summaryForParticle detector) = detector.
Proof. repeat split. Qed.

(** C10. A [generatedParticle] is built with an empty [pSum], whatever its
    other members hold. *)
Theorem new_generatedParticle_pSum_empty (vertex0 momentum0 : G4ThreeVector)
    (PID0 : Z) (time0 : double) (multiplicity0 : Z) :
  pSum (new_generatedParticle vertex0 momentum0 PID0 time0 multiplicity0) = [] /\
  length (pSum (new_generatedParticle vertex0 momentum0 PID0 time0 multiplicity0)) = 0%nat.
Proof. split; reflexivity. Qed.

(** ** Named variables *)

Lemma getVariableFromStringI_known tbl what p f :
  tbl what = Some f -> getVariableFromStringI tbl what p = inr (int_field_value f p).
Proof. intros Hf. unfold getVariableFromStringI. by rewrite Hf. Qed.

Lemma getVariableFromStringD_known tbl what p f :
  tbl what = Some f -> getVariableFromStringD tbl what p = inr (double_field_value f p).
Proof. intros Hf. unfold getVariableFromStringD. by rewrite Hf. Qed.

Lemma not_recognized_none itbl dtbl what :
  ~ recognized itbl dtbl what -> itbl what = None /\ dtbl what = None.
Proof.
  unfold recognized. intros Hn.
  destruct (itbl what) eqn:Hi; [exfalso; apply Hn; left; eauto|].
  destruct (dtbl what) eqn:Hd; [exfalso; apply Hn; right; eauto|].
  done.
Qed.

(** C6. Asked for a name that is none of the vertex, momentum, identity
    and time fields, both lookups answer with the "unknown variable name"
    outcome that carries the name; no member is read. *)
Theorem unknown_variable_name_outcome
    (int_field_of_name : string -> option int_field)
    (double_field_of_name : string -> option double_field)
    (what : string) (p : generatedParticle) :
  ~ recognized int_field_of_name double_field_of_name what ->
  getVariableFromStringI int_field_of_name what p = inl (UnknownVariableName what) /\
  getVariableFromStringD double_field_of_name what p = inl (UnknownVariableName what).
Proof.
  intros [Hi Hd]%not_recognized_none.
  unfold getVariableFromStringI, getVariableFromStringD. by rewrite Hi, Hd.
Qed.

Lemma unknown_variable_name_outcome_witness :
  getVariableFromStringI sample_int_names "adc" sample_particle
    = inl (UnknownVariableName "adc") /\
  getVariableFromStringD sample_double_names "adc" sample_particle
    = inl (UnknownVariableName "adc").
Proof.
  apply (unknown_variable_name_outcome sample_int_names sample_double_names
           "adc" sample_particle).
  intros [[f Hf]|[f Hf]]; vm_compute in Hf; discriminate Hf.
Defined.

(** ** The registry *)

Lemma registerOutputFactories_lookup kinds kind construct :
  registerOutputFactories kinds !! kind = Some construct ->
  kind ∈ kinds /\ construct = (fun _ => mk_outputFactory kind).
Proof.
  unfold registerOutputFactories. intros Hl.
  apply elem_of_list_to_map_2 in Hl.
  apply list_elem_of_fmap in Hl as (k & Heq & Hk).
  injection Heq as -> ->. done.
Qed.

Lemma registerOutputFactories_absent kinds kind :
  kind ∉ kinds -> registerOutputFactories kinds !! kind = None.
Proof.
  intros Hk. destruct (registerOutputFactories kinds !! kind) as [c|] eqn:Hl; [|done].
  apply registerOutputFactories_lookup in Hl as [Hin _]. done.
Qed.

Lemma registerOutputFactories_matches kinds :
  registry_matches (registerOutputFactories kinds).
Proof. intros kind construct [_ ->]%registerOutputFactories_lookup. done. Qed.

(** C5. In a registry, a kind that is present yields the backend its
    constructor builds, whose [outputType] is that kind; a kind that is
    absent yields the "unknown output kind" error that carries the kind.
    There is no third outcome. *)
Theorem getOutputFactory_backend_or_error
    (outputFactoryMap : gmap string outputFactoryInMap) (kind : string) :
  registry_matches outputFactoryMap ->
  (forall construct,
      outputFactoryMap !! kind = Some construct ->
      getOutputFactory outputFactoryMap kind = inr (construct tt) /\
      outputType (construct tt) = kind) /\
  (outputFactoryMap !! kind = None ->
      getOutputFactory outputFactoryMap kind = inl (UnknownOutputKind kind)) /\
  ((exists b, getOutputFactory outputFactoryMap kind = inr b /\ outputType b = kind) \/
   getOutputFactory outputFactoryMap kind = inl (UnknownOutputKind kind)).
Proof.
  intros Hreg. unfold getOutputFactory.
  destruct (outputFactoryMap !! kind) as [construct|] eqn:Hl.
  - pose proof (Hreg _ _ Hl) as Hty.
    split; [|split].
    + intros c [= <-]. done.
    + discriminate.
    + left. eauto.
  - split; [|split].
    + discriminate.
    + done.
    + by right.
Qed.

Lemma getOutputFactory_backend_or_error_witness :
  (exists b, getOutputFactory (registerOutputFactories sample_kinds) "text" = inr b /\
             outputType b = "text"%string) /\
  getOutputFactory (registerOutputFactories sample_kinds) "root"
    = inl (UnknownOutputKind "root").
Proof.
  pose proof (registerOutputFactories_matches sample_kinds) as Hreg.
  destruct (getOutputFactory_backend_or_error _ "text" Hreg) as (Hin & _ & _).
  destruct (getOutputFactory_backend_or_error _ "root" Hreg) as (_ & Hout & _).
  split.
  - eexists. apply (Hin (fun _ => mk_outputFactory "text")). reflexivity.
  - apply Hout. reflexivity.
Defined.

(** ** The output channel *)

Lemma occurrences_app e (l1 l2 : list io_event) :
  occurrences e (l1 ++ l2) = (occurrences e l1 + occurrences e l2)%nat.
Proof. unfold occurrences. by rewrite filter_app, length_app. Qed.

Lemma occurrences_nil e : occurrences e [] = 0%nat.
Proof. reflexivity. Qed.

Lemma other_kind_neq k : other_kind k <> k.
Proof. by destruct k. Qed.

Section ChannelFacts.
Variable goptions : Type.
Variable option_outType : goptions -> string.
Variable option_outFile : goptions -> string.
Variable kind_of : string -> option stream_kind.
Variable can_open : stream_kind -> string -> bool.
Implicit Types (c : outputContainer goptions) (k : stream_kind) (s : stream_state).

Lemma handle_of_with_handle k h c : handle_of k (with_handle k h c) = h.
Proof. by destruct k. Qed.

Lemma handle_of_with_handle_other k h c :
  handle_of (other_kind k) (with_handle k h c) = handle_of (other_kind k) c.
Proof. by destruct k. Qed.

Lemma outType_with_handle k h c : outType (with_handle k h c) = outType c.
Proof. by destruct k. Qed.

Lemma channel_shape_with_handle k s s' c :
  channel_shape kind_of k s c -> channel_shape kind_of k s' (with_handle k (Some s') c).
Proof.
  intros (Hk & _ & Ho). unfold channel_shape.
  by rewrite outType_with_handle, handle_of_with_handle, handle_of_with_handle_other.
Qed.

Lemma release_absent k c : handle_of k c = None -> release k c = inr (c, []).
Proof. intros Hh. unfold release. by rewrite Hh. Qed.

Lemma release_present k s c :
  handle_of k c = Some s ->
  release k c =
    inr (match s with
         | StreamOpen => (with_handle k (Some StreamClosed) c, [EvFlush k; EvClose k])
         | StreamFailed | StreamClosed => (c, [])
         end).
Proof. intros Hh. unfold release. rewrite Hh. by destruct s. Qed.

(** The destructor on a well-shaped channel: it never fails, and it closes
    the stream exactly when the stream is still open. *)
Lemma delete_outputContainer_shape k s c :
  channel_shape kind_of k s c ->
  exists c' ev,
    delete_outputContainer c = inr (c', ev) /\
    channel_shape kind_of k (match s with StreamOpen => StreamClosed | _ => s end) c' /\
    occurrences (EvClose k) ev = pending s /\
    occurrences (EvFlush k) ev = pending s /\
    occurrences (EvClose (other_kind k)) ev = 0%nat.
Proof.
  intros Hshape. pose proof Hshape as (Hk & Hh & Ho).
  unfold delete_outputContainer. destruct k; simpl in Hh, Ho.
  - rewrite (release_present TextStream s c Hh). destruct s.
    + rewrite release_absent by done.
      eexists _, _. split; [reflexivity|].
      split; [by apply (channel_shape_with_handle TextStream StreamOpen)|done].
    + rewrite release_absent by done. eexists _, _. done.
    + rewrite release_absent by done. eexists _, _. done.
  - rewrite (release_absent TextStream c Ho).
    rewrite (release_present StructuredStream s c Hh). destruct s.
    + eexists _, _. split; [reflexivity|].
      split; [by apply (channel_shape_with_handle StructuredStream StreamOpen)|done].
    + eexists _, _. done.
    + eexists _, _. done.
Qed.

Lemma write_outputContainer_shape k s c accepted :
  channel_shape kind_of k s c ->
  write_outputContainer kind_of accepted c =
    match s with
    | StreamOpen => if accepted then inr (c, [EvWrite k]) else inl (WriteFailed k)
    | StreamFailed | StreamClosed => inl (NotOpen k)
    end.
Proof.
  intros (Hk & Hh & _). unfold write_outputContainer. rewrite Hk, Hh.
  by destruct s, accepted.
Qed.

Lemma delete_outputContainer_open k c :
  channel_shape kind_of k StreamOpen c ->
  delete_outputContainer c
    = inr (with_handle k (Some StreamClosed) c, [EvFlush k; EvClose k]).
Proof.
  intros (_ & Hh & Ho). unfold delete_outputContainer. destruct k; simpl in Hh, Ho.
  - rewrite (release_present TextStream StreamOpen c Hh).
    by rewrite release_absent.
  - rewrite (release_absent TextStream c Ho).
    by rewrite (release_present StructuredStream StreamOpen c Hh).
Qed.

(** One operation of the run keeps the shape and the closes still owed. *)
Lemma apply_op_shape op k s c c' ev :
  channel_shape kind_of k s c ->
  apply_op kind_of op c = inr (c', ev) ->
  exists s',
    channel_shape kind_of k s' c' /\
    (occurrences (EvClose k) ev + pending s' = pending s)%nat /\
    (occurrences (EvFlush k) ev + pending s' = pending s)%nat /\
    occurrences (EvClose (other_kind k)) ev = 0%nat.
Proof.
  intros Hshape Hop. destruct op as [accepted|]; simpl in Hop.
  - rewrite (write_outputContainer_shape k s c accepted Hshape) in Hop.
    destruct s, accepted; try discriminate. injection Hop as <- <-.
    exists StreamOpen. split; [done|]. destruct k; done.
  - destruct (delete_outputContainer_shape k s c Hshape)
      as (c1 & ev1 & Hdel & Hshape1 & Hc & Hf & Ho).
    rewrite Hdel in Hop. injection Hop as <- <-.
    eexists. split; [exact Hshape1|].
    rewrite Hc, Hf, Ho. by destruct s.
Qed.

Lemma run_ops_shape ops : forall k s c,
  channel_shape kind_of k s c ->
  exists c' ev err s',
    run_ops kind_of ops c = (c', ev, err) /\
    channel_shape kind_of k s' c' /\
    (occurrences (EvClose k) ev + pending s' = pending s)%nat /\
    (occurrences (EvFlush k) ev + pending s' = pending s)%nat /\
    occurrences (EvClose (other_kind k)) ev = 0%nat.
Proof.
  induction ops as [|op ops IH]; intros k s c Hshape; simpl.
  - exists c, [], None, s. done.
  - destruct (apply_op kind_of op c) as [e|[c1 ev1]] eqn:Hop.
    + exists c, [], (Some e), s. done.
    + destruct (apply_op_shape op k s c c1 ev1 Hshape Hop)
        as (s1 & Hshape1 & Hc1 & Hf1 & Ho1).
      destruct (IH k s1 c1 Hshape1) as (c2 & ev2 & err & s2 & Hrun & Hshape2 & Hc2 & Hf2 & Ho2).
      rewrite Hrun. exists c2, (ev1 ++ ev2), err, s2.
      split; [done|]. split; [done|].
      rewrite !occurrences_app. lia.
Qed.

Lemma lifetime_shape ops k s c :
  channel_shape kind_of k s c ->
  exists trace err,
    lifetime kind_of ops c = inr (trace, err) /\
    occurrences (EvClose k) trace = pending s /\
    occurrences (EvFlush k) trace = pending s /\
    occurrences (EvClose (other_kind k)) trace = 0%nat.
Proof.
  intros Hshape. unfold lifetime.
  destruct (run_ops_shape ops k s c Hshape)
    as (c1 & ev1 & err & s1 & Hrun & Hshape1 & Hc1 & Hf1 & Ho1).
  destruct (delete_outputContainer_shape k s1 c1 Hshape1)
    as (c2 & ev2 & Hdel & _ & Hc2 & Hf2 & Ho2).
  rewrite Hrun, Hdel. exists (ev1 ++ ev2), err.
  split; [done|]. rewrite !occurrences_app. lia.
Qed.

Lemma new_outputContainer_shape opts cons :
  new_outputContainer goptions option_outType option_outFile kind_of can_open opts = inr cons ->
  exists k s,
    kind_of (option_outType opts) = Some k /\
    channel_shape kind_of k s (built cons) /\
    s = (if can_open k (option_outFile opts) then StreamOpen else StreamFailed) /\
    reported cons =
      (if can_open k (option_outFile opts) then None
       else Some (CannotOpen (option_outFile opts))).
Proof.
  unfold new_outputContainer, stream_open.
  destruct (kind_of (option_outType opts)) as [k|] eqn:Hk; [|discriminate].
  destruct (can_open k (option_outFile opts)) eqn:Hopen; intros [= <-]; simpl;
    [exists k, StreamOpen|exists k, StreamFailed];
    rewrite Hopen; (split; [done|]); (split; [|done]);
    unfold channel_shape;
    rewrite outType_with_handle, handle_of_with_handle, handle_of_with_handle_other;
    simpl; by destruct k.
Qed.

(** A run whose writes go through until one fails: it ends with the error
    of that write, and with the stream still open. *)
Lemma run_ops_failed_write n rest k c :
  channel_shape kind_of k StreamOpen c ->
  run_ops kind_of (replicate n (OpWrite true) ++ OpWrite false :: rest) c
    = (c, replicate n (EvWrite k), Some (WriteFailed k)).
Proof.
  intros Hshape. induction n as [|n IH]; simpl.
  - by rewrite (write_outputContainer_shape k StreamOpen c false Hshape).
  - rewrite (write_outputContainer_shape k StreamOpen c true Hshape). by rewrite IH.
Qed.

Lemma lifetime_failed_write n rest k c :
  channel_shape kind_of k StreamOpen c ->
  lifetime kind_of (replicate n (OpWrite true) ++ OpWrite false :: rest) c
    = inr (replicate n (EvWrite k) ++ [EvFlush k; EvClose k], Some (WriteFailed k)).
Proof.
  intros Hshape. unfold lifetime.
  rewrite (run_ops_failed_write n rest k c Hshape).
  by rewrite (delete_outputContainer_open k c Hshape).
Qed.

(** C7. A channel that was constructed holds the one handle its output
    type selects and no other; the stream behind it is open unless the
    constructor reported that it could not be opened.  Over any run, ended
    normally or by a failing operation, and with or without explicit
    closes, the destructor does not fail, and the whole trace flushes and
    closes an opened stream once, a stream that never opened not at all,
    and the other kind of stream never.  In particular a run that a failed
    write ends while the stream is open is torn down by one flush and one
    close, which come last in its trace. *)
Theorem channel_released_once (opts : goptions) (cons : construction goptions) :
  new_outputContainer goptions option_outType option_outFile kind_of can_open opts
    = inr cons ->
  exists k s,
    kind_of (option_outType opts) = Some k /\
    holds_only k (built cons) /\
    handle_of k (built cons) = Some s /\
    (s = StreamOpen /\ reported cons = None \/
     s = StreamFailed /\ reported cons = Some (CannotOpen (option_outFile opts))) /\
    (forall ops : list channel_op,
      exists trace err,
        lifetime kind_of ops (built cons) = inr (trace, err) /\
        occurrences (EvClose k) trace = pending s /\
        occurrences (EvFlush k) trace = pending s /\
        occurrences (EvClose (other_kind k)) trace = 0%nat) /\
    (s = StreamOpen ->
     forall (n : nat) (rest : list channel_op),
       run_ops kind_of (replicate n (OpWrite true) ++ OpWrite false :: rest) (built cons)
         = (built cons, replicate n (EvWrite k), Some (WriteFailed k)) /\
       lifetime kind_of (replicate n (OpWrite true) ++ OpWrite false :: rest) (built cons)
         = inr (replicate n (EvWrite k) ++ [EvFlush k; EvClose k],
                Some (WriteFailed k))).
Proof.
  intros Hnew.
  destruct (new_outputContainer_shape opts cons Hnew) as (k & s & Hk & Hshape & Hs & Hrep).
  exists k, s. pose proof Hshape as (_ & Hh & Ho).
  split; [done|]. split; [split; [rewrite Hh; eauto|done]|]. split; [done|].
  split; [|split].
  - destruct (can_open k (option_outFile opts)); [left|right]; done.
  - intros ops. by apply lifetime_shape.
  - intros Hopen n rest. rewrite Hopen in Hshape.
    split; [by apply run_ops_failed_write|by apply lifetime_failed_write].
Qed.

End ChannelFacts.

Lemma channel_released_once_witness :
  (forall ops : list channel_op,
     exists trace err,
       lifetime sample_kind_of ops
         (with_handle TextStream (Some StreamOpen)
            (mk_outputContainer (string * string) ("text", "run.txt")%string
               "text" "run.txt" None None))
         = inr (trace, err) /\
       occurrences (EvClose TextStream) trace = 1%nat /\
       occurrences (EvFlush TextStream) trace = 1%nat) /\
  lifetime sample_kind_of [OpWrite true; OpWrite false; OpWrite true]
    (with_handle TextStream (Some StreamOpen)
       (mk_outputContainer (string * string) ("text", "run.txt")%string
          "text" "run.txt" None None))
    = inr ([EvWrite TextStream; EvFlush TextStream; EvClose TextStream],
           Some (WriteFailed TextStream)).
Proof.
  destruct (channel_released_once (string * string) fst snd sample_kind_of sample_can_open
              ("text", "run.txt")%string
              (mk_construction _
                 (with_handle TextStream (Some StreamOpen)
                    (mk_outputContainer (string * string) ("text", "run.txt")%string
                       "text" "run.txt" None None))
                 [EvOpen TextStream "run.txt"] None) eq_refl)
    as (k & s & Hk & _ & _ & [[Hs _]|[_ Hrep]] & Hlife & Hfail); [|discriminate Hrep].
  vm_compute in Hk. injection Hk as <-. rewrite Hs in Hlife. split.
  - intros ops. destruct (Hlife ops) as (trace & err & Hl & Hc & Hf & _).
    exists trace, err. auto.
  - exact (proj2 (Hfail Hs 1%nat [OpWrite true])).
Defined.

(** ** Further properties of [hitOutput] *)

Lemma setOneRaw_insert s x h : setOneRaw s x h = setRaws (<[s := x]> (raws h)) h.
Proof. unfold setOneRaw. by rewrite map_subscript_assign_insert. Qed.

Lemma setOneDgt_insert s x h : setOneDgt s x h = setDgtz (<[s := x]> (dgtz h)) h.
Proof. unfold setOneDgt. by rewrite map_subscript_assign_insert. Qed.

Lemma getIntRawVar_value s h : (getIntRawVar s h).1 = default miss_sentinel (raws h !! s).
Proof. by rewrite getIntRawVar_unfold. Qed.

Lemma getIntDgtVar_value s h : (getIntDgtVar s h).1 = default miss_sentinel (dgtz h !! s).
Proof. by rewrite getIntDgtVar_unfold. Qed.

(** X1. What [setOneRaw] (resp. [setOneDgt]) stored under [s] is what the
    lookup of [s] returns, and the lookup of any other key returns what it
    returned before the call. *)
Theorem setOne_then_lookup (h : hitOutput) (s s' : string) (x : double) :
  (getIntRawVar s (setOneRaw s x h)).1 = x /\
  (getIntDgtVar s (setOneDgt s x h)).1 = x /\
  (s' <> s ->
   (getIntRawVar s' (setOneRaw s x h)).1 = (getIntRawVar s' h).1 /\
   (getIntDgtVar s' (setOneDgt s x h)).1 = (getIntDgtVar s' h).1).
Proof.
  rewrite !getIntRawVar_value, !getIntDgtVar_value, raws_setOneRaw, dgtz_setOneDgt.
  rewrite !lookup_insert_eq. split; [done|]. split; [done|].
  intros Hne. by rewrite !lookup_insert_ne.
Qed.

Lemma setOne_then_lookup_witness :
  (getIntRawVar "edep" (setOneRaw "time" (of_int 3) sample_hit)).1
    = (getIntRawVar "edep" sample_hit).1 /\
  (getIntDgtVar "edep" (setOneDgt "time" (of_int 3) sample_hit)).1
    = (getIntDgtVar "edep" sample_hit).1.
Proof.
  destruct (setOne_then_lookup sample_hit "time" "edep" (of_int 3)) as (_ & _ & Hother).
  apply Hother. intros Heq. vm_compute in Heq. discriminate Heq.
Defined.

(** X2. Single-entry setters compose as assignments do: a second set of
    the same key overwrites the first, sets of different keys commute, and
    a set in [raws] commutes with a set in [dgtz]. *)
Theorem setOne_overwrite_commute (h : hitOutput) (s s' : string) (x y : double) :
  setOneRaw s y (setOneRaw s x h) = setOneRaw s y h /\
  setOneDgt s y (setOneDgt s x h) = setOneDgt s y h /\
  setOneRaw s x (setOneDgt s' y h) = setOneDgt s' y (setOneRaw s x h) /\
  (s <> s' ->
   setOneRaw s x (setOneRaw s' y h) = setOneRaw s' y (setOneRaw s x h) /\
   setOneDgt s x (setOneDgt s' y h) = setOneDgt s' y (setOneDgt s x h)).
Proof.
  rewrite !setOneRaw_insert, !setOneDgt_insert. unfold setRaws, setDgtz. simpl.
  rewrite !insert_insert_eq. split; [done|]. split; [done|]. split; [done|].
  intros Hne. by rewrite (insert_insert_ne (raws h)), (insert_insert_ne (dgtz h)).
Qed.

Lemma of_int_range_eq i j : int_range i -> int_range j -> of_int i = of_int j <-> i = j.
Proof. intros Hi Hj. split; [by apply of_int_inj|by intros ->]. Qed.

Lemma int_range_sentinel : int_range (-99).
Proof. unfold int_range. lia. Qed.

(** X3. After an [int] [i] has been stored under [s], the lookup of [s]
    returns the value a miss returns exactly when [i] is -99: a stored -99
    cannot be told from an absent key, and every other [int] can. *)
Theorem stored_int_reads_as_miss_iff (h : hitOutput) (s : string) (i : Z) :
  int_range i ->
  map_contains s (raws (setOneRaw_int s i h)) = true /\
  map_contains s (dgtz (setOneDgt_int s i h)) = true /\
  ((getIntRawVar s (setOneRaw_int s i h)).1 = miss_sentinel <-> i = -99) /\
  ((getIntDgtVar s (setOneDgt_int s i h)).1 = miss_sentinel <-> i = -99).
Proof.
  intros Hi.
  change (setOneRaw_int s i h) with (setOneRaw s (of_int i) h).
  change (setOneDgt_int s i h) with (setOneDgt s (of_int i) h).
  rewrite getIntRawVar_value, getIntDgtVar_value, raws_setOneRaw, dgtz_setOneDgt.
  rewrite !lookup_insert_eq. simpl.
  split; [apply (map_contains_true _ _ (of_int i)), lookup_insert_eq|].
  split; [apply (map_contains_true _ _ (of_int i)), lookup_insert_eq|].
  split; apply of_int_range_eq; auto using int_range_sentinel.
Qed.

Lemma stored_int_reads_as_miss_iff_witness :
  (getIntRawVar "edep" (setOneRaw_int "edep" (-99) sample_hit)).1 = miss_sentinel /\
  (getIntRawVar "none" sample_hit).1 = miss_sentinel.
Proof.
  destruct (stored_int_reads_as_miss_iff sample_hit "edep" (-99) int_range_sentinel)
    as (_ & _ & [_ Hraw] & _).
  split; [apply Hraw; reflexivity|reflexivity].
Defined.

(** X4. A lookup that returns anything but the sentinel found its key: the
    returned value is the one stored under [s]. *)
Theorem non_sentinel_means_present (h : hitOutput) (s : string) :
  ((getIntRawVar s h).1 <> miss_sentinel -> raws h !! s = Some (getIntRawVar s h).1) /\
  ((getIntDgtVar s h).1 <> miss_sentinel -> dgtz h !! s = Some (getIntDgtVar s h).1).
Proof.
  rewrite getIntRawVar_value, getIntDgtVar_value.
  split.
  - destruct (raws h !! s); simpl; [done|]. intros Hne. by destruct Hne.
  - destruct (dgtz h !! s); simpl; [done|]. intros Hne. by destruct Hne.
Qed.

Lemma non_sentinel_means_present_witness :
  raws sample_hit !! "edep"%string = Some (getIntRawVar "edep" sample_hit).1 /\
  dgtz sample_hit !! "adc"%string = Some (getIntDgtVar "adc" sample_hit).1.
Proof.
  destruct (non_sentinel_means_present sample_hit "edep") as [Hraw _].
  destruct (non_sentinel_means_present sample_hit "adc") as [_ Hdgt].
  split.
  - apply Hraw. intros Heq. vm_compute in Heq. discriminate Heq.
  - apply Hdgt. intros Heq. vm_compute in Heq. discriminate Heq.
Defined.

(** X5. [getIntRawVar] reads [raws] and nothing else, [getIntDgtVar] reads
    [dgtz] and nothing else: records that agree on the map give the same
    answer, so no setter of another container changes it, not even a set
    of the same key in the sibling map. *)
Theorem lookups_read_their_map_only (h h' : hitOutput) (s s' : string) (x : double)
    (m : gmap string double) :
  (raws h = raws h' -> (getIntRawVar s h).1 = (getIntRawVar s h').1) /\
  (dgtz h = dgtz h' -> (getIntDgtVar s h).1 = (getIntDgtVar s h').1) /\
  (getIntRawVar s (setOneDgt s' x h)).1 = (getIntRawVar s h).1 /\
  (getIntRawVar s (setDgtz m h)).1 = (getIntRawVar s h).1 /\
  (getIntDgtVar s (setOneRaw s' x h)).1 = (getIntDgtVar s h).1 /\
  (getIntDgtVar s (setRaws m h)).1 = (getIntDgtVar s h).1.
Proof.
  rewrite !getIntRawVar_value, !getIntDgtVar_value.
  split; [by intros ->|]. split; [by intros ->|]. done.
Qed.

Lemma lookups_read_their_map_only_witness :
  (getIntRawVar "edep" sample_hit).1
    = (getIntRawVar "edep" (setMultiDgt {[ "tdc"%string := [1; 2] ]} sample_hit)).1 /\
  (getIntDgtVar "adc" sample_hit).1
    = (getIntDgtVar "adc" (setMultiDgt {[ "tdc"%string := [1; 2] ]} sample_hit)).1.
Proof.
  destruct (lookups_read_their_map_only sample_hit
              (setMultiDgt {[ "tdc"%string := [1; 2] ]} sample_hit)
              "edep" "edep" zero ∅) as (Hraw & _).
  destruct (lookups_read_their_map_only sample_hit
              (setMultiDgt {[ "tdc"%string := [1; 2] ]} sample_hit)
              "adc" "adc" zero ∅) as (_ & Hdgt & _).
  split; [apply Hraw; reflexivity|apply Hdgt; reflexivity].
Defined.

Lemma populate_raws (l : list (string * double)) h :
  foldr (fun p => setOneRaw p.1 p.2) h l = setRaws (list_to_map l ∪ raws h) h.
Proof.
  induction l as [|[k x] l IH]; simpl.
  - rewrite (left_id_L ∅ (∪)). by rewrite setRaws_same.
  - rewrite IH, setOneRaw_insert. unfold setRaws. simpl.
    by rewrite insert_union_l.
Qed.

Lemma populate_dgtz (l : list (string * double)) h :
  foldr (fun p => setOneDgt p.1 p.2) h l = setDgtz (list_to_map l ∪ dgtz h) h.
Proof.
  induction l as [|[k x] l IH]; simpl.
  - rewrite (left_id_L ∅ (∪)). by rewrite setDgtz_same.
  - rewrite IH, setOneDgt_insert. unfold setDgtz. simpl.
    by rewrite insert_union_l.
Qed.

(** X6. Filling a map one entry at a time gives what the whole-container
    setter gives.  A run of [setOneRaw] calls (the last call first in the
    list) leaves [raws] as the entries of the run laid over the old map,
    later calls winning; started from an emptied map with the entries of
    [m], it yields the record [setRaws m] yields.  Likewise for
    [setOneDgt] and [setDgtz]. *)
Theorem entrywise_fill_is_whole_set (h : hitOutput) (l : list (string * double))
    (m : gmap string double) :
  getRaws (foldr (fun p => setOneRaw p.1 p.2) h l) = list_to_map l ∪ getRaws h /\
  getDgtz (foldr (fun p => setOneDgt p.1 p.2) h l) = list_to_map l ∪ getDgtz h /\
  foldr (fun p => setOneRaw p.1 p.2) (setRaws ∅ h) (map_to_list m) = setRaws m h /\
  foldr (fun p => setOneDgt p.1 p.2) (setDgtz ∅ h) (map_to_list m) = setDgtz m h.
Proof.
  rewrite !populate_raws, !populate_dgtz. simpl.
  rewrite list_to_map_to_list, (right_id_L ∅ (∪)).
  by destruct h.
Qed.

(** X7. A single-entry set adds its key and no other: the keys afterwards
    are the old keys and [s]; the map grows by one entry when [s] was
    absent and keeps its size when [s] was present. *)
Theorem setOne_keys (h : hitOutput) (s : string) (x : double) :
  dom (raws (setOneRaw s x h)) = {[ s ]} ∪ dom (raws h) /\
  dom (dgtz (setOneDgt s x h)) = {[ s ]} ∪ dom (dgtz h) /\
  (raws h !! s = None -> size (raws (setOneRaw s x h)) = S (size (raws h))) /\
  (dgtz h !! s = None -> size (dgtz (setOneDgt s x h)) = S (size (dgtz h))) /\
  (is_Some (raws h !! s) -> size (raws (setOneRaw s x h)) = size (raws h)) /\
  (is_Some (dgtz h !! s) -> size (dgtz (setOneDgt s x h)) = size (dgtz h)).
Proof.
  rewrite raws_setOneRaw, dgtz_setOneDgt, !dom_insert_L.
  split; [done|]. split; [done|].
  split; [apply map_size_insert_None|].
  split; [apply map_size_insert_None|].
  split; apply map_size_insert_Some.
Qed.

Lemma setOne_keys_witness :
  size (raws (setOneRaw "time" zero sample_hit)) = S (size (raws sample_hit)) /\
  size (raws (setOneRaw "edep" zero sample_hit)) = size (raws sample_hit).
Proof.
  destruct (setOne_keys sample_hit "time" zero) as (_ & _ & Hnew & _).
  destruct (setOne_keys sample_hit "edep" zero) as (_ & _ & _ & _ & Hold & _).
  split; [apply Hnew; reflexivity|apply Hold; eexists; reflexivity].
Defined.

(** X8. The six getters show the whole record: two records on which every
    getter returns the same container are the same record. *)
Theorem getters_determine_record (h h' : hitOutput) :
  (forall g, getter_value g h = getter_value g h') -> h = h'.
Proof.
  intros Hall. destruct h, h'.
  pose proof (Hall GetRaws) as H1. pose proof (Hall GetDgtz) as H2.
  pose proof (Hall GetAllRaws) as H3. pose proof (Hall GetSignalVT) as H4.
  pose proof (Hall GetQuantumS) as H5. pose proof (Hall GetMultiDgt) as H6.
  simpl in *. congruence.
Qed.

Lemma getters_determine_record_witness :
  setOneRaw "edep" (of_int 7) sample_hit = sample_hit.
Proof.
  apply (getters_determine_record (setOneRaw "edep" (of_int 7) sample_hit) sample_hit).
  intros []; vm_compute; reflexivity.
Defined.

(** X9. The time a [summaryForParticle] starts with is below every time
    that is not negative, whatever the detector: comparing a hit time with
    it tells that no time has been assigned yet. *)
Theorem new_summary_time_below (detector : string) (x : double) :
  SFleb zero x = true -> ltb (t (new_summaryForParticle detector)) x = true.
Proof.
  destruct x as [sx|sx| |sx m e]; try done.
  - by destruct sx.
  - by destruct sx.
Qed.

Lemma new_summary_time_below_witness :
  ltb (t (new_summaryForParticle "ecal")) (of_int 5) = true.
Proof. apply (new_summary_time_below "ecal" (of_int 5)). reflexivity. Defined.

(** X10. A whole-container setter discards what was in its container,
    entries set one at a time included, so of two sets of one container the
    later alone counts; setters of different containers commute. *)
Theorem whole_setters_compose (h : hitOutput) (r r' d d' : gmap string double)
    (a a' : gmap string (list double)) (v v' : gmap double double) (q q' : gmap Z Z)
    (m m' : gmap string (list Z)) (s : string) (x : double) :
  (setRaws r (setOneRaw s x h) = setRaws r h /\
   setDgtz d (setOneDgt s x h) = setDgtz d h /\
   (getIntRawVar s (setRaws ∅ (setOneRaw s x h))).1 = miss_sentinel /\
   (getIntDgtVar s (setDgtz ∅ (setOneDgt s x h))).1 = miss_sentinel) /\
  (setRaws r (setRaws r' h) = setRaws r h /\
   setDgtz d (setDgtz d' h) = setDgtz d h /\
   setAllRaws a (setAllRaws a' h) = setAllRaws a h /\
   setSignal v (setSignal v' h) = setSignal v h /\
   setQuantumS q (setQuantumS q' h) = setQuantumS q h /\
   setMultiDgt m (setMultiDgt m' h) = setMultiDgt m h) /\
  (setRaws r (setDgtz d h) = setDgtz d (setRaws r h) /\
   setRaws r (setAllRaws a h) = setAllRaws a (setRaws r h) /\
   setRaws r (setSignal v h) = setSignal v (setRaws r h) /\
   setRaws r (setQuantumS q h) = setQuantumS q (setRaws r h) /\
   setRaws r (setMultiDgt m h) = setMultiDgt m (setRaws r h) /\
   setDgtz d (setAllRaws a h) = setAllRaws a (setDgtz d h) /\
   setDgtz d (setSignal v h) = setSignal v (setDgtz d h) /\
   setDgtz d (setQuantumS q h) = setQuantumS q (setDgtz d h) /\
   setDgtz d (setMultiDgt m h) = setMultiDgt m (setDgtz d h) /\
   setAllRaws a (setSignal v h) = setSignal v (setAllRaws a h) /\
   setAllRaws a (setQuantumS q h) = setQuantumS q (setAllRaws a h) /\
   setAllRaws a (setMultiDgt m h) = setMultiDgt m (setAllRaws a h) /\
   setSignal v (setQuantumS q h) = setQuantumS q (setSignal v h) /\
   setSignal v (setMultiDgt m h) = setMultiDgt m (setSignal v h) /\
   setQuantumS q (setMultiDgt m h) = setMultiDgt m (setQuantumS q h)).
Proof.
  rewrite setOneRaw_insert, setOneDgt_insert, getIntRawVar_value, getIntDgtVar_value.
  split; [|split].
  - repeat (split; [reflexivity|]). reflexivity.
  - repeat (split; [reflexivity|]). reflexivity.
  - repeat (split; [reflexivity|]). reflexivity.
Qed.

(** ** Further properties of return by value *)

Lemma call_getter_keeps g this st ret st1 a o :
  call_getter g this st = Some (ret, st1) -> st !! a = Some o -> st1 !! a = Some o.
Proof.
  unfold call_getter. destruct (st !! this) as [[h|c]|] eqn:Hthis; try discriminate.
  intros [= <- <-] Ha. rewrite lookup_insert_ne; [done|].
  intros Heq. rewrite <- Heq, fresh_address_free in Ha. discriminate.
Qed.

Lemma getters_return_copies_aux st this h g :
  st !! this = Some (ObjHit h) ->
  exists ret st1,
    call_getter g this st = Some (ret, st1) /\
    st !! ret = None /\ ret <> this /\
    st1 !! ret = Some (ObjContainer (getter_value g h)) /\
    st1 !! this = Some (ObjHit h).
Proof.
  intros Hthis.
  exists (fresh (dom st)), (<[fresh (dom st) := ObjContainer (getter_value g h)]> st).
  pose proof (fresh_address_free st) as Hfree.
  assert (fresh (dom st) <> this) as Hne by congruence.
  split; [by apply call_getter_at|]. split; [done|]. split; [done|].
  split; [apply lookup_insert_eq|by rewrite lookup_insert_ne].
Qed.

(** X11. Two getter calls on one record hand back two objects: they sit at
    different addresses, every object that was in the store before is as it
    was, and overwriting either copy leaves the other copy as returned. *)
Theorem successive_copies_independent (st : gmap address object) (this : address)
    (h : hitOutput) (g1 g2 : getter) :
  st !! this = Some (ObjHit h) ->
  exists r1 st1 r2 st2,
    call_getter g1 this st = Some (r1, st1) /\
    call_getter g2 this st1 = Some (r2, st2) /\
    r1 <> r2 /\
    (forall a o, st !! a = Some o -> st2 !! a = Some o) /\
    forall c : container,
      mutate r1 c st2 !! r2 = Some (ObjContainer (getter_value g2 h)) /\
      mutate r2 c st2 !! r1 = Some (ObjContainer (getter_value g1 h)) /\
      mutate r1 c st2 !! this = Some (ObjHit h) /\
      mutate r2 c st2 !! this = Some (ObjHit h).
Proof.
  intros Hthis.
  destruct (getters_return_copies_aux st this h g1 Hthis)
    as (r1 & st1 & Hc1 & Hfree1 & Hne1 & Hr1 & Hthis1).
  destruct (getters_return_copies_aux st1 this h g2 Hthis1)
    as (r2 & st2 & Hc2 & Hfree2 & Hne2 & Hr2 & Hthis2).
  exists r1, st1, r2, st2.
  assert (r1 <> r2) as Hne by congruence.
  split; [done|]. split; [done|]. split; [done|].
  split; [intros a o Ha; eauto using call_getter_keeps|].
  intros c. unfold mutate. rewrite !lookup_insert_ne by done.
  eauto using call_getter_keeps.
Qed.



Lemma successive_copies_independent_witness :
  exists r1 st1 r2 st2,
    call_getter GetRaws 1%positive sample_store = Some (r1, st1) /\
    call_getter GetDgtz 1%positive st1 = Some (r2, st2) /\
    r1 <> r2 /\
    forall c : container,
      mutate r1 c st2 !! r2 = Some (ObjContainer (getter_value GetDgtz sample_hit)) /\
      mutate r2 c st2 !! r1 = Some (ObjContainer (getter_value GetRaws sample_hit)).
Proof.
  destruct (successive_copies_independent sample_store 1%positive sample_hit
              GetRaws GetDgtz eq_refl)
    as (r1 & st1 & r2 & st2 & Hc1 & Hc2 & Hne & _ & Hmut).
  exists r1, st1, r2, st2. split; [exact Hc1|]. split; [exact Hc2|]. split; [exact Hne|].
  intros c. destruct (Hmut c) as (H1 & H2 & _). split; [exact H1|exact H2].
Defined.

Lemma setOne_overwrite_commute_witness :
  setOneRaw "edep" zero (setOneRaw "time" (of_int 3) sample_hit)
    = setOneRaw "time" (of_int 3) (setOneRaw "edep" zero sample_hit).
Proof.
  destruct (setOne_overwrite_commute sample_hit "edep" "time" zero (of_int 3))
    as (_ & _ & _ & Hcomm).
  apply Hcomm. intros Heq. vm_compute in Heq. discriminate Heq.
Defined.
